(** * The Log2 shaper: [log_encoding_Log2] and [log_decoding_Log2]

    A shallow embedding of [src/Log2 shaper/log.py] and the properties of
    its specification.

    The source is written once, for whatever NumPy hands it: a scalar or an
    array, in binary64.  The embedding keeps that shape.  The two functions
    are defined once, over

    - a scalar carrier [T] with the arithmetic the source uses
      ([Numeric T]: [+ - * /], [np.log2], [**] and integer literals), and
    - a data carrier [A] on which NumPy applies a scalar function
      elementwise ([Elementwise T A]): a scalar itself, or an [ndarray].

    They are then read at two scalar carriers:

    - [R], exact real arithmetic, where [np.log2 x] is [ln x / ln 2] and
      [b ** x] is [Rpower b x].  This is binary64 with rounding, overflow
      and underflow idealised away; it is faithful to the source wherever
      the logarithm and the divisions are defined, and every theorem over
      [R] carries the hypotheses that make them so;
    - [spec_float] at precision 53 and exponent bound 1024, the Standard
      Library's IEEE 754 binary64, with the two transcendental NumPy
      primitives left abstract. *)

From Stdlib Require Import Reals Lra Lia ZArith List Bool.
From Stdlib Require Import Floats.SpecFloat.
Import ListNotations.

(** ** Carriers *)

(** The scalar arithmetic of the source.  [of_Z] reads an integer literal;
    a decimal literal such as [0.18] is the quotient of two of them. *)
Class Numeric (T : Type) : Type := {
  add : T -> T -> T;
  sub : T -> T -> T;
  mul : T -> T -> T;
  div : T -> T -> T;
  opp : T -> T;
  np_log2 : T -> T;
  power : T -> T -> T;
  of_Z : Z -> T
}.

(** What NumPy accepts for [lin] and [log_norm]: "numeric or array_like". *)
Inductive ndarray (T : Type) : Type :=
  | scalar (x : T)
  | array (xs : list T).

Arguments scalar {T} x.
Arguments array {T} xs.

(** A NumPy universal function applies a scalar function to every element
    and keeps the shape. *)
Class Elementwise (T A : Type) : Type := {
  ufunc : (T -> T) -> A -> A
}.

#[export] Instance Elementwise_scalar (T : Type) : Elementwise T T :=
  {| ufunc := fun f x => f x |}.

#[export] Instance Elementwise_ndarray (T : Type) : Elementwise T (ndarray T) :=
  {| ufunc := fun f a =>
       match a with
       | scalar x => scalar (f x)
       | array xs => array (map f xs)
       end |}.

Declare Scope np_scope.
Delimit Scope np_scope with np.

(** Scalar against scalar. *)
Notation "x + y" := (add x y) : np_scope.
Notation "x - y" := (sub x y) : np_scope.
Notation "x * y" := (mul x y) : np_scope.
Notation "x / y" := (div x y) : np_scope.
Notation "- x" := (opp x) : np_scope.
Notation "x ** y" := (power x y) (at level 30, right associativity) : np_scope.

(** Data against a scalar parameter: the scalar is broadcast. *)
Notation "a .+ s" := (ufunc (fun x => add x s) a) (at level 50, left associativity) : np_scope.
Notation "a .- s" := (ufunc (fun x => sub x s) a) (at level 50, left associativity) : np_scope.
Notation "a .* s" := (ufunc (fun x => mul x s) a) (at level 40, left associativity) : np_scope.
Notation "a ./ s" := (ufunc (fun x => div x s) a) (at level 40, left associativity) : np_scope.
Notation "s .** a" := (ufunc (fun x => power s x) a) (at level 30, right associativity) : np_scope.

(** ** The source *)

Section Log2Shaper.

Context {T A : Type} `{Numeric T} `{Elementwise T A}.

(** [colour.utilities.to_domain_1] and [from_range_1]: imported, not part
    of the repository. *)
Variables to_domain_1 from_range_1 : A -> A.

Local Open Scope np_scope.

Definition log_encoding_Log2 (lin : A) (middle_grey min_exposure max_exposure : T) : A :=
  let lin := to_domain_1 lin in
  let lg2 := ufunc np_log2 (lin ./ middle_grey) in
  let log_norm := (lg2 .- min_exposure) ./ (max_exposure - min_exposure) in
  from_range_1 log_norm.

Definition log_decoding_Log2 (log_norm : A) (middle_grey min_exposure max_exposure : T) : A :=
  let log_norm := to_domain_1 log_norm in
  let lg2 := log_norm .* (max_exposure - min_exposure) .+ min_exposure in
  let lin := (of_Z 2 .** lg2) .* middle_grey in
  from_range_1 lin.

End Log2Shaper.

(** The default arguments of both signatures:
    [middle_grey=0.18, min_exposure=0.18*2**-6.5, max_exposure=0.18*2**6.5]. *)
Section Defaults.

Context {T : Type} `{Numeric T}.
Local Open Scope np_scope.

Definition default_middle_grey : T := of_Z 18 / of_Z 100.

Definition default_min_exposure : T :=
  (of_Z 18 / of_Z 100) * (of_Z 2 ** (- (of_Z 65 / of_Z 10))).

Definition default_max_exposure : T :=
  (of_Z 18 / of_Z 100) * (of_Z 2 ** (of_Z 65 / of_Z 10)).

End Defaults.

(** ** Exact real arithmetic *)

#[export] Instance Numeric_R : Numeric R := {|
  add := Rplus;
  sub := Rminus;
  mul := Rmult;
  div := Rdiv;
  opp := Ropp;
  np_log2 := fun x => (ln x / ln 2)%R;
  power := Rpower;
  of_Z := IZR
|}.

(** The two functions on real scalars, hooks still to be supplied. *)
Definition encode (to_domain_1 from_range_1 : R -> R) : R -> R -> R -> R -> R :=
  log_encoding_Log2 (T := R) (A := R) to_domain_1 from_range_1.

Definition decode (to_domain_1 from_range_1 : R -> R) : R -> R -> R -> R -> R :=
  log_decoding_Log2 (T := R) (A := R) to_domain_1 from_range_1.

(** The hooks of the default configuration. *)
Definition identity_hook {A : Type} (a : A) : A := a.

(** ** IEEE 754 binary64

    NumPy's [float64] arithmetic is IEEE 754 binary64: the Standard
    Library's [SFadd], [SFsub], [SFmul] and [SFdiv] at precision 53 and
    exponent bound 1024, rounding to nearest even.  [np.log2] and [**] come
    from the C library and stay parameters.  An integer literal is the
    nearest binary64 number. *)
Definition Numeric_binary64
    (log2_64 : spec_float -> spec_float)
    (power_64 : spec_float -> spec_float -> spec_float) : Numeric spec_float := {|
  add := SFadd 53 1024;
  sub := SFsub 53 1024;
  mul := SFmul 53 1024;
  div := SFdiv 53 1024;
  opp := SFopp;
  np_log2 := log2_64;
  power := power_64;
  of_Z := fun z => binary_normalize 53 1024 z 0 false
|}.

(** The two functions on binary64 scalars, with the hooks of the default
    configuration. *)
Definition encode64 (log2_64 : spec_float -> spec_float)
    (power_64 : spec_float -> spec_float -> spec_float)
    : spec_float -> spec_float -> spec_float -> spec_float -> spec_float :=
  @log_encoding_Log2 spec_float spec_float (Numeric_binary64 log2_64 power_64) _
    identity_hook identity_hook.

Definition decode64 (log2_64 : spec_float -> spec_float)
    (power_64 : spec_float -> spec_float -> spec_float)
    : spec_float -> spec_float -> spec_float -> spec_float -> spec_float :=
  @log_decoding_Log2 spec_float spec_float (Numeric_binary64 log2_64 power_64) _
    identity_hook identity_hook.

(** The sentinels of a division by zero: an infinity or a NaN. *)
Definition is_inf_or_nan (x : spec_float) : bool :=
  match x with
  | S754_infinity _ | S754_nan => true
  | S754_zero _ | S754_finite _ _ _ => false
  end.

(** A number, zero included: neither an infinity nor a NaN. *)
Definition is_number (x : spec_float) : bool := negb (is_inf_or_nan x).

(** Binary64 numbers of the examples below, by sign, mantissa and
    exponent: [0.18], [6.5], [-6.5], the two numbers that follow [1.5]
    ([1.5000000000000002] and [1.5000000000000004]), [2 ** -60], the least
    positive number [2 ** -1074] (printed [5e-324]), and [1], [2], [4],
    [-100]. *)
Definition b64_0_18 : spec_float := S754_finite false 6485183463413514 (-55).
Definition b64_6_5 : spec_float := S754_finite false 7318349394477056 (-50).
Definition b64_neg_6_5 : spec_float := S754_finite true 7318349394477056 (-50).
Definition b64_1_5_next : spec_float := S754_finite false 6755399441055745 (-52).
Definition b64_1_5_next2 : spec_float := S754_finite false 6755399441055746 (-52).
Definition b64_2_pow_neg_60 : spec_float := S754_finite false 4503599627370496 (-112).
Definition b64_least : spec_float := S754_finite false 1 (-1074).
Definition b64_1 : spec_float := binary_normalize 53 1024 1 0 false.
Definition b64_2 : spec_float := binary_normalize 53 1024 2 0 false.
Definition b64_4 : spec_float := binary_normalize 53 1024 4 0 false.
Definition b64_neg_100 : spec_float := binary_normalize 53 1024 (-100) 0 false.

(** [x > 0] in binary64. *)
Definition b64_positive (x : spec_float) : bool := SFltb (S754_zero false) x.

(** [elementwise_of F f]: on data, [F] is the scalar function [f] applied
    to every element, the shape kept: a scalar gives a scalar, an array of
    length [N] an array of length [N] whose element [i] is [f] of element
    [i]. *)
Definition elementwise_of {T : Type} (F : ndarray T -> ndarray T) (f : T -> T) : Prop :=
  (forall x, F (scalar x) = scalar (f x)) /\
  (forall xs, exists ys,
     F (array xs) = array ys /\
     length ys = length xs /\
     forall i x, nth_error xs i = Some x -> nth_error ys i = Some (f x)).

(** ** Certified bounds on integer powers

    The reference values of the docstrings need [log2 100] to many digits.
    A ratio [p / q] is below [log2 c] exactly when [2 ^ p < c ^ q]; the
    powers are far too large to write out, so they are bracketed by
    [m * 2 ^ e] with [m] kept to a fixed number of bits, rounding down for
    a lower bound and up for an upper one. *)

Open Scope Z_scope.

Definition trunc_lo (bits : Z) (me : Z * Z) : Z * Z :=
  let '(m, e) := me in
  let s := Z.log2 m + 1 - bits in
  if s <=? 0 then (m, e) else (Z.shiftr m s, e + s).

Definition trunc_hi (bits : Z) (me : Z * Z) : Z * Z :=
  let '(m, e) := me in
  let s := Z.log2 m + 1 - bits in
  if s <=? 0 then (m, e) else (Z.shiftr m s + 1, e + s).

Fixpoint pow_bound (trunc : Z * Z -> Z * Z) (b : Z) (n : positive) : Z * Z :=
  match n with
  | xH => (b, 0)
  | xO n' => let '(m, e) := pow_bound trunc b n' in trunc (m * m, 2 * e)
  | xI n' => let '(m, e) := pow_bound trunc b n' in trunc (m * m * b, 2 * e)
  end.

(** [below (m, e) v]: [m * 2 ^ e] is a lower bound of [v]; [above]: an
    upper bound. *)
Definition below (me : Z * Z) (v : Z) : Prop := 0 <= fst me /\ 0 <= snd me /\ fst me * 2 ^ snd me <= v.
Definition above (me : Z * Z) (v : Z) : Prop := 0 <= fst me /\ 0 <= snd me /\ v <= fst me * 2 ^ snd me.

(** The two comparisons decided from the brackets. *)
Definition pow2_lt_pow (bits p c : Z) (q : positive) : bool :=
  let '(m, e) := pow_bound (trunc_lo bits) c q in
  (e <=? p) && (2 ^ (p - e) <? m).

Definition pow_lt_pow2 (bits c : Z) (q : positive) (p : Z) : bool :=
  let '(m, e) := pow_bound (trunc_hi bits) c q in
  (e <=? p) && (m <? 2 ^ (p - e)).

Close Scope Z_scope.

(** ** Lemmas on the power brackets *)

Section PowerBrackets.

Open Scope Z_scope.

Lemma trunc_lo_below bits m e v : below (m, e) v -> below (trunc_lo bits (m, e)) v.
Proof.
  unfold below, trunc_lo; cbn [fst snd]. intros (Hm & He & Hv).
  destruct (Z.leb_spec (Z.log2 m + 1 - bits) 0) as [Hs | Hs]; cbn [fst snd]; [tauto |].
  set (s := Z.log2 m + 1 - bits) in *.
  repeat split; [apply Z.shiftr_nonneg; exact Hm | lia |].
  rewrite Z.shiftr_div_pow2 by lia. rewrite Z.pow_add_r by lia.
  assert (H2 : 0 < 2 ^ s) by (apply Z.pow_pos_nonneg; lia).
  assert (H3 : 0 <= 2 ^ e) by (apply Z.pow_nonneg; lia).
  pose proof (Z.mul_div_le m (2 ^ s) H2) as H4.
  transitivity (m * 2 ^ e); [| exact Hv].
  rewrite (Z.mul_comm (2 ^ e)), Z.mul_assoc.
  apply Z.mul_le_mono_nonneg_r; [exact H3 | lia].
Qed.

Lemma trunc_hi_above bits m e v : above (m, e) v -> above (trunc_hi bits (m, e)) v.
Proof.
  unfold above, trunc_hi; cbn [fst snd]. intros (Hm & He & Hv).
  destruct (Z.leb_spec (Z.log2 m + 1 - bits) 0) as [Hs | Hs]; cbn [fst snd]; [tauto |].
  set (s := Z.log2 m + 1 - bits) in *.
  assert (H0 : 0 <= Z.shiftr m s) by (apply Z.shiftr_nonneg; exact Hm).
  repeat split; [lia | lia |].
  rewrite Z.shiftr_div_pow2 in * by lia. rewrite Z.pow_add_r by lia.
  assert (H2 : 0 < 2 ^ s) by (apply Z.pow_pos_nonneg; lia).
  assert (H3 : 0 <= 2 ^ e) by (apply Z.pow_nonneg; lia).
  pose proof (Z.mul_succ_div_gt m (2 ^ s) H2) as H4.
  transitivity (m * 2 ^ e); [exact Hv |].
  rewrite (Z.mul_comm (2 ^ e)), Z.mul_assoc.
  apply Z.mul_le_mono_nonneg_r; [exact H3 | lia].
Qed.

Lemma pow_xO b n : b ^ Zpos n~0 = b ^ Zpos n * b ^ Zpos n.
Proof. rewrite Pos2Z.inj_xO, Z.mul_comm, Z.pow_mul_r by lia. apply Z.pow_2_r. Qed.

Lemma pow_xI b n : b ^ Zpos n~1 = b ^ Zpos n * b ^ Zpos n * b.
Proof.
  rewrite Pos2Z.inj_xI, Z.pow_add_r, Z.pow_1_r by lia.
  f_equal. rewrite Z.mul_comm, Z.pow_mul_r by lia. apply Z.pow_2_r.
Qed.

Lemma square_scaled m e : (m * 2 ^ e) * (m * 2 ^ e) = m * m * 2 ^ (2 * e).
Proof. replace (2 * e) with (e + e) by lia. destruct (Z.le_gt_cases 0 e).
  - rewrite Z.pow_add_r by lia. ring.
  - rewrite !Z.pow_neg_r by lia. ring.
Qed.

Lemma pow_bound_lo bits b n : 0 <= b -> below (pow_bound (trunc_lo bits) b n) (b ^ Zpos n).
Proof.
  intros Hb. induction n as [n IH | n IH |]; cbn [pow_bound].
  - destruct (pow_bound (trunc_lo bits) b n) as [m e].
    apply trunc_lo_below. destruct IH as (Hm & He & Hv); cbn [fst snd] in *.
    repeat split; cbn [fst snd]; [nia | lia |].
    rewrite pow_xI.
    assert (0 <= m * 2 ^ e) by (apply Z.mul_nonneg_nonneg; [lia | apply Z.pow_nonneg; lia]).
    replace (m * m * b * 2 ^ (2 * e)) with (m * 2 ^ e * (m * 2 ^ e) * b) by (rewrite square_scaled; ring).
    apply Z.mul_le_mono_nonneg_r; [exact Hb |].
    apply Z.mul_le_mono_nonneg; lia.
  - destruct (pow_bound (trunc_lo bits) b n) as [m e].
    apply trunc_lo_below. destruct IH as (Hm & He & Hv); cbn [fst snd] in *.
    repeat split; cbn [fst snd]; [nia | lia |].
    rewrite pow_xO, <- square_scaled.
    assert (0 <= m * 2 ^ e) by (apply Z.mul_nonneg_nonneg; [lia | apply Z.pow_nonneg; lia]).
    apply Z.mul_le_mono_nonneg; lia.
  - repeat split; cbn [fst snd]; rewrite ?Z.pow_0_r, ?Z.pow_1_r; lia.
Qed.

Lemma pow_bound_hi bits b n : 0 <= b -> above (pow_bound (trunc_hi bits) b n) (b ^ Zpos n).
Proof.
  intros Hb. induction n as [n IH | n IH |]; cbn [pow_bound].
  - destruct (pow_bound (trunc_hi bits) b n) as [m e].
    apply trunc_hi_above. destruct IH as (Hm & He & Hv); cbn [fst snd] in *.
    repeat split; cbn [fst snd]; [nia | lia |].
    rewrite pow_xI.
    replace (m * m * b * 2 ^ (2 * e)) with (m * 2 ^ e * (m * 2 ^ e) * b) by (rewrite square_scaled; ring).
    assert (0 <= b ^ Zpos n) by (apply Z.pow_nonneg; exact Hb).
    apply Z.mul_le_mono_nonneg_r; [exact Hb |].
    apply Z.mul_le_mono_nonneg; lia.
  - destruct (pow_bound (trunc_hi bits) b n) as [m e].
    apply trunc_hi_above. destruct IH as (Hm & He & Hv); cbn [fst snd] in *.
    repeat split; cbn [fst snd]; [nia | lia |].
    rewrite pow_xO, <- square_scaled.
    assert (0 <= b ^ Zpos n) by (apply Z.pow_nonneg; exact Hb).
    apply Z.mul_le_mono_nonneg; lia.
  - repeat split; cbn [fst snd]; rewrite ?Z.pow_0_r, ?Z.pow_1_r; lia.
Qed.

Lemma pow2_lt_pow_sound bits p c q : 0 <= c -> pow2_lt_pow bits p c q = true -> 2 ^ p < c ^ Zpos q.
Proof.
  intros Hc. unfold pow2_lt_pow. pose proof (@pow_bound_lo bits c q Hc) as H.
  destruct (pow_bound (trunc_lo bits) c q) as [m e]. destruct H as (Hm & He & Hv); cbn [fst snd] in *.
  rewrite andb_true_iff, Z.leb_le, Z.ltb_lt. intros [Hep Hlt].
  replace p with ((p - e) + e) by lia. rewrite Z.pow_add_r by lia.
  apply Z.lt_le_trans with (m * 2 ^ e); [| exact Hv].
  apply Z.mul_lt_mono_pos_r; [apply Z.pow_pos_nonneg; lia | exact Hlt].
Qed.

Lemma pow_lt_pow2_sound bits p c q : 0 <= c -> pow_lt_pow2 bits c q p = true -> c ^ Zpos q < 2 ^ p.
Proof.
  intros Hc. unfold pow_lt_pow2. pose proof (@pow_bound_hi bits c q Hc) as H.
  destruct (pow_bound (trunc_hi bits) c q) as [m e]. destruct H as (Hm & He & Hv); cbn [fst snd] in *.
  rewrite andb_true_iff, Z.leb_le, Z.ltb_lt. intros [Hep Hlt].
  replace p with ((p - e) + e) by lia. rewrite Z.pow_add_r by lia.
  apply Z.le_lt_trans with (m * 2 ^ e); [exact Hv |].
  apply Z.mul_lt_mono_pos_r; [apply Z.pow_pos_nonneg; lia | exact Hlt].
Qed.

End PowerBrackets.

(** ** Properties over the reals *)

Section RealShaper.

Open Scope R_scope.

(** The hooks, behaving as in the default configuration of the library. *)
Variables to_domain_1 from_range_1 : R -> R.
Hypothesis to_domain_1_id : forall x, to_domain_1 x = x.
Hypothesis from_range_1_id : forall x, from_range_1 x = x.

Lemma ln_2_pos : 0 < ln 2.
Proof. rewrite <- ln_1. apply ln_increasing; lra. Qed.

Lemma ln_2_neq_0 : ln 2 <> 0.
Proof. apply Rgt_not_eq, ln_2_pos. Qed.

Lemma encode_eq lin mg mn mx :
  encode to_domain_1 from_range_1 lin mg mn mx =
  (ln (lin / mg) / ln 2 - mn) / (mx - mn).
Proof.
  unfold encode, log_encoding_Log2; cbn.
  now rewrite from_range_1_id, to_domain_1_id.
Qed.

Lemma decode_eq y mg mn mx :
  decode to_domain_1 from_range_1 y mg mn mx =
  Rpower 2 (y * (mx - mn) + mn) * mg.
Proof.
  unfold decode, log_decoding_Log2; cbn.
  now rewrite from_range_1_id, to_domain_1_id.
Qed.

(** [2 ** log2 x = x] on the positive reals. *)
Lemma Rpower_2_log2 x : 0 < x -> Rpower 2 (ln x / ln 2) = x.
Proof.
  intros Hx. unfold Rpower.
  replace (ln x / ln 2 * ln 2) with (ln x) by (field; apply ln_2_neq_0).
  now apply exp_ln.
Qed.

(** [log2 (2 ** s) = s] everywhere. *)
Lemma log2_Rpower_2 s : ln (Rpower 2 s) / ln 2 = s.
Proof. rewrite ln_Rpower. field. apply ln_2_neq_0. Qed.

(** Normalising stops onto the exposure range and back. *)
Lemma normalise_denormalise s mn mx :
  mx - mn <> 0 -> (s - mn) / (mx - mn) * (mx - mn) + mn = s.
Proof. intros Hd. field. exact Hd. Qed.

Lemma denormalise_normalise y mn mx :
  mx - mn <> 0 -> (y * (mx - mn) + mn - mn) / (mx - mn) = y.
Proof. intros Hd. field. exact Hd. Qed.

(** C1. Decoding an encoded value gives the value back: for every
    [lin > 0], [middle_grey > 0] and [max_exposure > min_exposure], with
    identity hooks, [decode (encode lin p) p = lin], exactly, in real
    arithmetic. *)
Theorem decode_encode_roundtrip lin mg mn mx :
  0 < lin -> 0 < mg -> mn < mx ->
  decode to_domain_1 from_range_1
    (encode to_domain_1 from_range_1 lin mg mn mx) mg mn mx = lin.
Proof.
  intros Hlin Hmg Hexp.
  rewrite decode_eq, encode_eq.
  rewrite normalise_denormalise by lra.
  rewrite Rpower_2_log2 by (apply Rdiv_lt_0_compat; assumption).
  field; lra.
Qed.

(** C2. Encoding a decoded value gives the value back: for every real
    [log_norm], [middle_grey > 0] and [max_exposure > min_exposure], with
    identity hooks, [encode (decode log_norm p) p = log_norm], exactly, in
    real arithmetic. *)
Theorem encode_decode_roundtrip y mg mn mx :
  0 < mg -> mn < mx ->
  encode to_domain_1 from_range_1
    (decode to_domain_1 from_range_1 y mg mn mx) mg mn mx = y.
Proof.
  intros Hmg Hexp.
  rewrite encode_eq, decode_eq.
  replace (Rpower 2 (y * (mx - mn) + mn) * mg / mg)
    with (Rpower 2 (y * (mx - mn) + mn)) by (field; lra).
  rewrite log2_Rpower_2.
  apply denormalise_normalise; lra.
Qed.

Lemma Rpower_2_increasing a b : a < b -> Rpower 2 a < Rpower 2 b.
Proof. intros Hab. apply Rpower_lt; lra. Qed.

Lemma Rpower_2_pos s : 0 < Rpower 2 s.
Proof. unfold Rpower. apply exp_pos. Qed.

(** C3, in exact real arithmetic. With [middle_grey > 0] and
    [max_exposure > min_exposure] (and identity hooks) the encoder is
    strictly increasing on [lin > 0] and the decoder is strictly increasing
    on all reals.  In binary64 the order is not strict, as an
    example further down shows. *)
Theorem encode_decode_strictly_increasing mg mn mx :
  0 < mg -> mn < mx ->
  (forall a b, 0 < a -> a < b ->
     encode to_domain_1 from_range_1 a mg mn mx <
     encode to_domain_1 from_range_1 b mg mn mx) /\
  (forall y z, y < z ->
     decode to_domain_1 from_range_1 y mg mn mx <
     decode to_domain_1 from_range_1 z mg mn mx).
Proof.
  intros Hmg Hexp. split.
  - intros a b Ha Hab. rewrite !encode_eq.
    assert (Hln : ln (a / mg) < ln (b / mg)).
    { apply ln_increasing.
      - apply Rdiv_lt_0_compat; assumption.
      - apply Rmult_lt_compat_r; [apply Rinv_0_lt_compat; assumption | assumption]. }
    apply Rmult_lt_compat_r; [apply Rinv_0_lt_compat; lra |].
    apply Rplus_lt_compat_r.
    apply Rmult_lt_compat_r; [apply Rinv_0_lt_compat, ln_2_pos | assumption].
  - intros y z Hyz. rewrite !decode_eq.
    apply Rmult_lt_compat_r; [assumption |].
    apply Rpower_2_increasing.
    apply Rplus_lt_compat_r.
    apply Rmult_lt_compat_r; lra.
Qed.


(** C9, in exact real arithmetic. One stop more of light moves the code
    by a fixed step: for [lin > 0], [middle_grey > 0] and
    [max_exposure > min_exposure], with identity hooks,
    [encode (2 * lin) - encode lin] is [1 / (max_exposure - min_exposure)],
    whatever [lin] is.  In binary64 the step can be lost, as an example
    further down shows. *)
Theorem encode_doubling_step lin mg mn mx :
  0 < lin -> 0 < mg -> mn < mx ->
  encode to_domain_1 from_range_1 (2 * lin) mg mn mx -
  encode to_domain_1 from_range_1 lin mg mn mx = 1 / (mx - mn).
Proof.
  intros Hlin Hmg Hexp. rewrite !encode_eq.
  replace (2 * lin / mg) with (2 * (lin / mg)) by (field; lra).
  rewrite ln_mult by (try lra; apply Rdiv_lt_0_compat; assumption).
  field. split; [lra | apply ln_2_neq_0].
Qed.

(** C10, in exact real arithmetic. The decoder only produces positive
    values: for every real [log_norm] and exposures and every
    [middle_grey > 0], with identity hooks, [decode log_norm p > 0],
    because [2 ** x > 0] for every real [x].  In binary64 the result can
    underflow to zero, as an example further down shows. *)
Theorem decode_positive y mg mn mx :
  0 < mg -> 0 < decode to_domain_1 from_range_1 y mg mn mx.
Proof.
  intros Hmg. rewrite decode_eq.
  apply Rmult_lt_0_compat; [apply Rpower_2_pos | assumption].
Qed.

(** *** Reference values

    [log2 100] and [sqrt 2] to seventeen digits, from integer
    comparisons. *)

Lemma IZR_pow_nat (c p : Z) : (0 <= p)%Z -> IZR (c ^ p) = IZR c ^ Z.to_nat p.
Proof. intros Hp. rewrite pow_IZR, Z2Nat.id by exact Hp. reflexivity. Qed.

Lemma ln_IZR_pow (c p : Z) : (0 < c)%Z -> (0 <= p)%Z -> ln (IZR (c ^ p)) = IZR p * ln (IZR c).
Proof.
  intros Hc Hp. rewrite IZR_pow_nat by exact Hp.
  rewrite ln_pow by (apply IZR_lt; exact Hc).
  rewrite INR_IZR_INZ, Z2Nat.id by exact Hp. reflexivity.
Qed.

Lemma ratio_lt a b c d : 0 < b -> 0 < d -> a * d < c * b -> a / b < c / d.
Proof.
  intros Hb Hd H.
  replace (a / b) with (a * d * (/ b * / d)) by (field; lra).
  replace (c / d) with (c * b * (/ b * / d)) by (field; lra).
  apply Rmult_lt_compat_r; [| exact H].
  apply Rmult_lt_0_compat; apply Rinv_0_lt_compat; assumption.
Qed.

Lemma log2_gt_ratio (c p : Z) (q : positive) :
  (0 < c)%Z -> (0 <= p)%Z -> (2 ^ p < c ^ Zpos q)%Z ->
  IZR p / IZR (Zpos q) < ln (IZR c) / ln 2.
Proof.
  intros Hc Hp H.
  assert (Hln : ln (IZR (2 ^ p)) < ln (IZR (c ^ Zpos q))).
  { apply ln_increasing; [| apply IZR_lt; exact H].
    apply IZR_lt. apply Z.pow_pos_nonneg; lia. }
  rewrite !ln_IZR_pow in Hln by lia.
  apply ratio_lt; [apply IZR_lt; lia | apply ln_2_pos |].
  rewrite (Rmult_comm (ln (IZR c))). exact Hln.
Qed.

Lemma log2_lt_ratio (c p : Z) (q : positive) :
  (0 < c)%Z -> (0 <= p)%Z -> (c ^ Zpos q < 2 ^ p)%Z ->
  ln (IZR c) / ln 2 < IZR p / IZR (Zpos q).
Proof.
  intros Hc Hp H.
  assert (Hln : ln (IZR (c ^ Zpos q)) < ln (IZR (2 ^ p))).
  { apply ln_increasing; [| apply IZR_lt; exact H].
    apply IZR_lt. apply Z.pow_pos_nonneg; lia. }
  rewrite !ln_IZR_pow in Hln by lia.
  apply ratio_lt; [apply ln_2_pos | apply IZR_lt; lia |].
  rewrite (Rmult_comm (ln (IZR c))). exact Hln.
Qed.

Lemma sqrt_gt a x : 0 <= a -> a * a < x -> a < sqrt x.
Proof.
  intros Ha H. rewrite <- (sqrt_square a) at 1 by exact Ha.
  apply sqrt_lt_1_alt. split; [apply Rmult_le_pos; exact Ha | exact H].
Qed.

Lemma sqrt_lt a x : 0 <= x -> 0 <= a -> x < a * a -> sqrt x < a.
Proof.
  intros Hx Ha H. rewrite <- (sqrt_square a) by exact Ha.
  apply sqrt_lt_1_alt. split; [exact Hx | exact H].
Qed.

Lemma sqrt_2_bounds : 1.41421356237309504 < sqrt 2 < 1.41421356237309505.
Proof. split; [apply sqrt_gt | apply sqrt_lt]; lra. Qed.

Lemma Rpower_2_6_5 : Rpower 2 (65 / 10) = 64 * sqrt 2.
Proof.
  replace (65 / 10) with (INR 6 + / 2) by (simpl; lra).
  rewrite Rpower_plus, Rpower_pow, Rpower_sqrt by lra. f_equal. lra.
Qed.

Lemma Rpower_2_neg_6_5 : Rpower 2 (- (65 / 10)) = sqrt 2 / 128.
Proof.
  rewrite Rpower_Ropp, Rpower_2_6_5.
  pose proof sqrt_2_bounds as [Hs _].
  pose proof (sqrt_sqrt 2) as Hss.
  apply Rmult_eq_reg_l with (64 * sqrt 2); [| lra].
  rewrite Rinv_r by lra.
  replace (64 * sqrt 2 * (sqrt 2 / 128)) with (sqrt 2 * sqrt 2 / 2) by field.
  rewrite Hss; lra.
Qed.

Lemma log2_100_bounds :
  95832151 / 14424176 < ln 100 / ln 2 < 198096465 / 29816489.
Proof.
  split.
  - apply (log2_gt_ratio 100 95832151 14424176); [lia | lia |].
    apply (pow2_lt_pow_sound 80); [lia | vm_compute; reflexivity].
  - apply (log2_lt_ratio 100 198096465 29816489); [lia | lia |].
    apply (pow_lt_pow2_sound 80); [lia | vm_compute; reflexivity].
Qed.

Lemma ln_2_lt_1 : ln 2 < 1.
Proof.
  rewrite <- (ln_exp 1). apply ln_increasing; [lra |].
  pose proof (exp_ineq1 1). lra.
Qed.

(** [2 ** d] stays close to one for a small exponent. *)
Lemma Rpower_2_near_1 d delta :
  0 < delta <= / 2 -> - delta <= d <= delta ->
  1 - delta <= Rpower 2 d <= 1 + 2 * delta.
Proof.
  intros [Hd0 Hd1] [Hlo Hhi]. unfold Rpower.
  pose proof ln_2_pos as Hl0. pose proof ln_2_lt_1 as Hl1.
  assert (Hx : - delta <= d * ln 2 <= delta) by nra.
  set (x := d * ln 2) in *. split.
  - pose proof (exp_ineq1_le x). lra.
  - pose proof (exp_ineq1_le (- x)) as Hm.
    rewrite exp_Ropp in Hm.
    pose proof (exp_pos x) as Hp.
    assert (Hinv : (1 - delta) * exp x <= 1).
    { apply Rle_trans with (/ exp x * exp x).
      - apply Rmult_le_compat_r; lra.
      - rewrite Rinv_l; lra. }
    nra.
Qed.

Lemma default_middle_grey_R : default_middle_grey (T := R) = 18 / 100.
Proof. reflexivity. Qed.

Lemma default_min_exposure_R : default_min_exposure (T := R) = 18 / 100 * (sqrt 2 / 128).
Proof. unfold default_min_exposure; cbn. now rewrite Rpower_2_neg_6_5. Qed.

Lemma default_max_exposure_R : default_max_exposure (T := R) = 18 / 100 * (64 * sqrt 2).
Proof. unfold default_max_exposure; cbn. now rewrite Rpower_2_6_5. Qed.

Lemma div_lt_l a b c : 0 < b -> a < c * b -> a / b < c.
Proof.
  intros Hb H. replace c with (c * b / b) by (field; lra).
  apply Rmult_lt_compat_r; [apply Rinv_0_lt_compat; exact Hb | exact H].
Qed.

Lemma div_gt_l a b c : 0 < b -> c * b < a -> c < a / b.
Proof.
  intros Hb H. replace c with (c * b / b) by (field; lra).
  apply Rmult_lt_compat_r; [apply Rinv_0_lt_compat; exact Hb | exact H].
Qed.

(** C5. The two reference values of the docstrings: with the default
    parameters ([middle_grey = 0.18], [min_exposure = 0.18 * 2 ** -6.5],
    [max_exposure = 0.18 * 2 ** 6.5]) and identity hooks, the exact value
    of [encode 18] is within [1e-15] of [0.40773288970434662], and the
    exact value of [decode 0.40773288970434662] is within [1e-12] of
    [17.999999999999993], hence of [18]. *)
Theorem docstring_reference_values :
  Rabs (encode to_domain_1 from_range_1 18
          default_middle_grey default_min_exposure default_max_exposure
        - 0.40773288970434662) < 1e-15 /\
  Rabs (decode to_domain_1 from_range_1 0.40773288970434662
          default_middle_grey default_min_exposure default_max_exposure
        - 17.999999999999993) < 1e-12.
Proof.
  pose proof log2_100_bounds as [HL0 HL1].
  pose proof sqrt_2_bounds as [Hs0 Hs1].
  rewrite encode_eq, decode_eq.
  rewrite default_middle_grey_R, default_min_exposure_R, default_max_exposure_R.
  replace (18 / (18 / 100)) with 100 by field.
  set (L := ln 100 / ln 2) in *. set (s := sqrt 2) in *.
  split.
  - set (N := L - 18 / 100 * (s / 128)).
    set (D := 18 / 100 * (64 * s) - 18 / 100 * (s / 128)).
    assert (HD : 0 < D) by (unfold D; lra).
    assert (Hhi : N / D < 0.40773288970434662 + 1e-15)
      by (apply div_lt_l; [exact HD | unfold N, D; lra]).
    assert (Hlo : 0.40773288970434662 - 1e-15 < N / D)
      by (apply div_gt_l; [exact HD | unfold N, D; lra]).
    apply Rabs_def1; lra.
  - set (e := 0.40773288970434662 * (18 / 100 * (64 * s) - 18 / 100 * (s / 128))
              + 18 / 100 * (s / 128)).
    replace e with (L + (e - L)) by ring.
    rewrite Rpower_plus.
    unfold L at 1. rewrite Rpower_2_log2 by lra.
    assert (Hd : Ropp 1e-14 <= e - L <= 1e-14) by (unfold e; lra).
    pose proof (Rpower_2_near_1 (e - L) 1e-14 ltac:(lra) Hd) as [Hp0 Hp1].
    set (P := Rpower 2 (e - L)) in *.
    apply Rabs_def1; lra.
Qed.

End RealShaper.

(** *** The statements above at concrete inputs *)

Section RealWitnesses.

Open Scope R_scope.

Lemma identity_hook_id : forall x : R, identity_hook x = x.
Proof. reflexivity. Defined.

Lemma decode_encode_roundtrip_witness :
  decode identity_hook identity_hook
    (encode identity_hook identity_hook 18 0.18 (-6.5) 6.5) 0.18 (-6.5) 6.5 = 18.
Proof.
  apply (decode_encode_roundtrip identity_hook identity_hook
           identity_hook_id identity_hook_id); lra.
Defined.

Lemma encode_decode_roundtrip_witness :
  encode identity_hook identity_hook
    (decode identity_hook identity_hook 0.5 0.18 (-6.5) 6.5) 0.18 (-6.5) 6.5 = 0.5.
Proof.
  apply (encode_decode_roundtrip identity_hook identity_hook
           identity_hook_id identity_hook_id); lra.
Defined.

Lemma encode_decode_strictly_increasing_witness :
  encode identity_hook identity_hook 1 0.18 (-6.5) 6.5 <
  encode identity_hook identity_hook 2 0.18 (-6.5) 6.5 /\
  decode identity_hook identity_hook 0 0.18 (-6.5) 6.5 <
  decode identity_hook identity_hook 1 0.18 (-6.5) 6.5.
Proof.
  destruct (encode_decode_strictly_increasing identity_hook identity_hook
              identity_hook_id identity_hook_id 0.18 (-6.5) 6.5) as [Henc Hdec];
    [lra | lra |].
  split; [apply Henc | apply Hdec]; lra.
Defined.

Lemma docstring_reference_values_witness :
  Rabs (encode identity_hook identity_hook 18
          default_middle_grey default_min_exposure default_max_exposure
        - 0.40773288970434662) < 1e-15 /\
  Rabs (decode identity_hook identity_hook 0.40773288970434662
          default_middle_grey default_min_exposure default_max_exposure
        - 17.999999999999993) < 1e-12.
Proof.
  exact (docstring_reference_values identity_hook identity_hook
           identity_hook_id identity_hook_id).
Defined.


Lemma encode_doubling_step_witness :
  encode identity_hook identity_hook (2 * 9) 0.18 (-6.5) 6.5 -
  encode identity_hook identity_hook 9 0.18 (-6.5) 6.5 = 1 / (6.5 - -6.5).
Proof.
  apply (encode_doubling_step identity_hook identity_hook
           identity_hook_id identity_hook_id); lra.
Defined.

Lemma decode_positive_witness :
  0 < decode identity_hook identity_hook (-100) 0.18 (-6.5) 6.5.
Proof.
  apply (decode_positive identity_hook identity_hook
           identity_hook_id identity_hook_id); lra.
Defined.

End RealWitnesses.

(** ** The default parameters *)

Section DefaultParameters.

Open Scope R_scope.

Lemma default_min_exposure_pos : 0 < default_min_exposure (T := R).
Proof.
  unfold default_min_exposure; cbn.
  apply Rmult_lt_0_compat; [lra | apply Rpower_2_pos].
Qed.

(** The default exposures are not the stop counts [-6.5] and [+6.5]: the
    default [min_exposure] is a positive number. *)
Lemma default_exposures_are_not_stop_counts :
  ~ (default_middle_grey (T := R) = 0.18 /\
     default_min_exposure (T := R) = -6.5 /\
     default_max_exposure (T := R) = 6.5).
Proof.
  intros (_ & Hmin & _). pose proof default_min_exposure_pos. lra.
Qed.

(** C4, as the code has it. The defaults of both signatures are
    [middle_grey = 0.18], [min_exposure = 0.18 * 2 ** -6.5] and
    [max_exposure = 0.18 * 2 ** 6.5]: the exposures are the linear values
    lying 6.5 stops below and above middle grey (their [log2] ratio to
    middle grey is [-6.5] and [+6.5]), about [0.00199] and [16.29], not
    the stop counts themselves. *)
Theorem default_parameters :
  default_middle_grey (T := R) = 0.18 /\
  default_min_exposure (T := R) = 0.18 * Rpower 2 (-6.5) /\
  default_max_exposure (T := R) = 0.18 * Rpower 2 6.5 /\
  np_log2 (default_min_exposure / default_middle_grey) = -6.5 /\
  np_log2 (default_max_exposure / default_middle_grey) = 6.5 /\
  0.0019887378 < default_min_exposure (T := R) < 0.0019887379 /\
  16.2917402385 < default_max_exposure (T := R) < 16.2917402386.
Proof.
  assert (Hmin : default_min_exposure (T := R) = 0.18 * Rpower 2 (-6.5)).
  { unfold default_min_exposure; cbn. replace (-6.5) with (- (65 / 10)) by lra. lra. }
  assert (Hmax : default_max_exposure (T := R) = 0.18 * Rpower 2 6.5).
  { unfold default_max_exposure; cbn. replace 6.5 with (65 / 10) by lra. lra. }
  assert (Hmg : default_middle_grey (T := R) = 0.18).
  { unfold default_middle_grey; cbn. lra. }
  pose proof sqrt_2_bounds as [Hs0 Hs1].
  repeat split; try assumption.
  - rewrite Hmin, Hmg; cbn.
    replace (0.18 * Rpower 2 (-6.5) / 0.18) with (Rpower 2 (-6.5)) by (field; lra).
    apply log2_Rpower_2.
  - rewrite Hmax, Hmg; cbn.
    replace (0.18 * Rpower 2 6.5 / 0.18) with (Rpower 2 6.5) by (field; lra).
    apply log2_Rpower_2.
  - rewrite default_min_exposure_R. lra.
  - rewrite default_min_exposure_R. lra.
  - rewrite default_max_exposure_R. lra.
  - rewrite default_max_exposure_R. lra.
Qed.

End DefaultParameters.

(** ** Scalars and arrays *)

Section Arrays.

Context {T : Type} `{Numeric T}.

Lemma ufunc_ndarray_compose (f g : T -> T) (a : ndarray T) :
  ufunc f (ufunc g a) = ufunc (fun x => f (g x)) a.
Proof. destruct a as [x | xs]; cbn; [reflexivity | now rewrite map_map]. Qed.

Lemma ufunc_elementwise (f : T -> T) : elementwise_of (ufunc f) f.
Proof.
  split; [reflexivity |].
  intros xs. exists (map f xs). split; [reflexivity |].
  split; [apply length_map |].
  intros i x Hx. now apply map_nth_error.
Qed.

(** The hooks of the library act on data elementwise; [td] and [fr] are
    what they do to one element (nothing, in the default configuration). *)
Variables td fr : T -> T.

Lemma log_encoding_Log2_ndarray a mg mn mx :
  log_encoding_Log2 (A := ndarray T) (ufunc td) (ufunc fr) a mg mn mx =
  ufunc (fun x => log_encoding_Log2 (A := T) td fr x mg mn mx) a.
Proof. unfold log_encoding_Log2. now rewrite !ufunc_ndarray_compose. Qed.

Lemma log_decoding_Log2_ndarray a mg mn mx :
  log_decoding_Log2 (A := ndarray T) (ufunc td) (ufunc fr) a mg mn mx =
  ufunc (fun x => log_decoding_Log2 (A := T) td fr x mg mn mx) a.
Proof. unfold log_decoding_Log2. now rewrite !ufunc_ndarray_compose. Qed.

(** C8. Both functions work elementwise and keep the shape: a scalar
    gives the scalar result, and an array of length [N] gives an array of
    length [N] whose element [i] is the scalar function applied to element
    [i] of the input. *)
Theorem log2_shaper_elementwise mg mn mx :
  elementwise_of
    (fun a => log_encoding_Log2 (A := ndarray T) (ufunc td) (ufunc fr) a mg mn mx)
    (fun x => log_encoding_Log2 (A := T) td fr x mg mn mx) /\
  elementwise_of
    (fun a => log_decoding_Log2 (A := ndarray T) (ufunc td) (ufunc fr) a mg mn mx)
    (fun x => log_decoding_Log2 (A := T) td fr x mg mn mx).
Proof.
  split.
  - destruct (ufunc_elementwise (fun x => log_encoding_Log2 (A := T) td fr x mg mn mx))
      as [Hs Ha].
    split; intros; rewrite log_encoding_Log2_ndarray; [apply Hs | apply Ha].
  - destruct (ufunc_elementwise (fun x => log_decoding_Log2 (A := T) td fr x mg mn mx))
      as [Hs Ha].
    split; intros; rewrite log_decoding_Log2_ndarray; [apply Hs | apply Ha].
Qed.

End Arrays.

(** ** Further properties over the reals *)

Section RealShaperHooks.

Open Scope R_scope.

(** Hooks that undo each other, as the library's do in every
    domain-range scale: [to_domain_1] divides by the scale that
    [from_range_1] multiplies by. *)
Variables to_domain_1 from_range_1 : R -> R.
Hypothesis to_domain_1_from_range_1 : forall x, to_domain_1 (from_range_1 x) = x.

Lemma encode_hooks lin mg mn mx :
  encode to_domain_1 from_range_1 lin mg mn mx =
  from_range_1 ((ln (to_domain_1 lin / mg) / ln 2 - mn) / (mx - mn)).
Proof. reflexivity. Qed.

Lemma decode_hooks y mg mn mx :
  decode to_domain_1 from_range_1 y mg mn mx =
  from_range_1 (Rpower 2 (to_domain_1 y * (mx - mn) + mn) * mg).
Proof. reflexivity. Qed.

(** Both round trips survive any pair of hooks that undo each other, and
    a reversed exposure range as well as an ordered one: decoding an
    encoded [lin] gives [from_range_1 (to_domain_1 lin)], and encoding a
    decoded [log_norm] gives [from_range_1 (to_domain_1 log_norm)]. *)
Theorem roundtrip_inverse_hooks lin y mg mn mx :
  0 < to_domain_1 lin -> 0 < mg -> mn <> mx ->
  decode to_domain_1 from_range_1
    (encode to_domain_1 from_range_1 lin mg mn mx) mg mn mx =
  from_range_1 (to_domain_1 lin) /\
  encode to_domain_1 from_range_1
    (decode to_domain_1 from_range_1 y mg mn mx) mg mn mx =
  from_range_1 (to_domain_1 y).
Proof.
  intros Hlin Hmg Hexp. split.
  - rewrite decode_hooks, encode_hooks, to_domain_1_from_range_1.
    rewrite normalise_denormalise by lra.
    rewrite Rpower_2_log2 by (apply Rdiv_lt_0_compat; assumption).
    f_equal. field; lra.
  - rewrite encode_hooks, decode_hooks, to_domain_1_from_range_1.
    replace (Rpower 2 (to_domain_1 y * (mx - mn) + mn) * mg / mg)
      with (Rpower 2 (to_domain_1 y * (mx - mn) + mn)) by (field; lra).
    rewrite log2_Rpower_2.
    f_equal. apply denormalise_normalise; lra.
Qed.

End RealShaperHooks.

Section RealShaperIdentity.

Open Scope R_scope.

Variables to_domain_1 from_range_1 : R -> R.
Hypothesis to_domain_1_id : forall x, to_domain_1 x = x.
Hypothesis from_range_1_id : forall x, from_range_1 x = x.

Lemma enc_eq lin mg mn mx :
  encode to_domain_1 from_range_1 lin mg mn mx =
  (ln (lin / mg) / ln 2 - mn) / (mx - mn).
Proof. now apply encode_eq. Qed.

Lemma dec_eq y mg mn mx :
  decode to_domain_1 from_range_1 y mg mn mx =
  Rpower 2 (y * (mx - mn) + mn) * mg.
Proof. now apply decode_eq. Qed.

Lemma Rpower_2_le_iff a b : Rpower 2 a <= Rpower 2 b <-> a <= b.
Proof.
  split.
  - intros H. destruct (Rle_or_lt a b) as [Hab | Hba]; [exact Hab |].
    apply Rpower_2_increasing in Hba. lra.
  - intros [Hlt | ->]; [left; now apply Rpower_2_increasing | right; reflexivity].
Qed.

Lemma log2_quotient lin mg mn :
  0 < lin -> 0 < mg ->
  (mn <= ln (lin / mg) / ln 2 <-> mg * Rpower 2 mn <= lin) /\
  (ln (lin / mg) / ln 2 <= mn <-> lin <= mg * Rpower 2 mn).
Proof.
  intros Hlin Hmg.
  assert (Hq : 0 < lin / mg) by (apply Rdiv_lt_0_compat; assumption).
  pose proof (Rpower_2_log2 (lin / mg) Hq) as Hpow.
  pose proof (Rpower_2_le_iff mn (ln (lin / mg) / ln 2)) as H1.
  pose proof (Rpower_2_le_iff (ln (lin / mg) / ln 2) mn) as H2.
  rewrite Hpow in H1, H2.
  assert (Hmul : forall v, (v <= lin / mg <-> mg * v <= lin) /\
                           (lin / mg <= v <-> lin <= mg * v)).
  { intros v. replace lin with (mg * (lin / mg)) at 2 4 by (field; lra).
    split; split; intros H; nra. }
  destruct (Hmul (Rpower 2 mn)) as [Ha Hb].
  split; [rewrite <- Ha, H1 | rewrite <- Hb, H2]; reflexivity.
Qed.

(** The exposure range is what lands on [[0, 1]]: with identity hooks,
    [middle_grey > 0] and a non-empty range, the linear values
    [middle_grey * 2 ** min_exposure] and [middle_grey * 2 ** max_exposure]
    encode to [0] and [1], and [0] and [1] decode to them. *)
Theorem exposure_range_endpoints mg mn mx :
  0 < mg -> mn <> mx ->
  encode to_domain_1 from_range_1 (mg * Rpower 2 mn) mg mn mx = 0 /\
  encode to_domain_1 from_range_1 (mg * Rpower 2 mx) mg mn mx = 1 /\
  decode to_domain_1 from_range_1 0 mg mn mx = mg * Rpower 2 mn /\
  decode to_domain_1 from_range_1 1 mg mn mx = mg * Rpower 2 mx.
Proof.
  intros Hmg Hexp.
  assert (Hq : forall s, mg * Rpower 2 s / mg = Rpower 2 s) by (intros s; field; lra).
  repeat split.
  - rewrite enc_eq, Hq, log2_Rpower_2. field; lra.
  - rewrite enc_eq, Hq, log2_Rpower_2. field; lra.
  - rewrite dec_eq. replace (0 * (mx - mn) + mn) with mn by ring. ring.
  - rewrite dec_eq. replace (1 * (mx - mn) + mn) with mx by ring. ring.
Qed.

(** Nothing is clamped: for [lin > 0], [middle_grey > 0] and
    [max_exposure > min_exposure], the code of [lin] lies in [[0, 1]]
    exactly when [lin] lies in the exposure range
    [[middle_grey * 2 ** min_exposure, middle_grey * 2 ** max_exposure]]. *)
Theorem encode_in_unit_interval_iff lin mg mn mx :
  0 < lin -> 0 < mg -> mn < mx ->
  (0 <= encode to_domain_1 from_range_1 lin mg mn mx <= 1 <->
   mg * Rpower 2 mn <= lin <= mg * Rpower 2 mx).
Proof.
  intros Hlin Hmg Hexp. rewrite enc_eq.
  destruct (log2_quotient lin mg mn Hlin Hmg) as [Hlo _].
  destruct (log2_quotient lin mg mx Hlin Hmg) as [_ Hhi].
  set (s := ln (lin / mg) / ln 2) in *.
  assert (Hd : 0 < mx - mn) by lra.
  assert (H0 : 0 <= (s - mn) / (mx - mn) <-> mn <= s).
  { split; intros H.
    - apply (Rmult_le_compat_r (mx - mn)) in H; [| lra].
      replace ((s - mn) / (mx - mn) * (mx - mn)) with (s - mn) in H by (field; lra). lra.
    - apply Rmult_le_pos; [lra | left; apply Rinv_0_lt_compat; exact Hd]. }
  assert (H1 : (s - mn) / (mx - mn) <= 1 <-> s <= mx).
  { split; intros H.
    - apply (Rmult_le_compat_r (mx - mn)) in H; [| lra].
      replace ((s - mn) / (mx - mn) * (mx - mn)) with (s - mn) in H by (field; lra). lra.
    - replace 1 with ((mx - mn) / (mx - mn)) by (field; lra).
      apply Rmult_le_compat_r; [left; apply Rinv_0_lt_compat; exact Hd | lra]. }
  rewrite H0, H1, Hlo, Hhi. reflexivity.
Qed.

(** Exposure shifts, both ways: with identity hooks, [lin > 0],
    [middle_grey > 0] and a non-empty range, scaling the light by [2 ** k]
    moves the code by [k / (max_exposure - min_exposure)], and moving a
    code by that much scales the decoded light by [2 ** k], for every
    real [k]. *)
Theorem exposure_shift lin y k mg mn mx :
  0 < lin -> 0 < mg -> mn <> mx ->
  encode to_domain_1 from_range_1 (lin * Rpower 2 k) mg mn mx =
  encode to_domain_1 from_range_1 lin mg mn mx + k / (mx - mn) /\
  decode to_domain_1 from_range_1 (y + k / (mx - mn)) mg mn mx =
  Rpower 2 k * decode to_domain_1 from_range_1 y mg mn mx.
Proof.
  intros Hlin Hmg Hexp. split.
  - rewrite !enc_eq.
    replace (lin * Rpower 2 k / mg) with (lin / mg * Rpower 2 k) by (field; lra).
    rewrite ln_mult by (try apply Rpower_2_pos; apply Rdiv_lt_0_compat; assumption).
    replace ((ln (lin / mg) + ln (Rpower 2 k)) / ln 2)
      with (ln (lin / mg) / ln 2 + ln (Rpower 2 k) / ln 2)
      by (field; apply ln_2_neq_0).
    rewrite log2_Rpower_2.
    generalize (ln (lin / mg) / ln 2); intros s. field; lra.
  - rewrite !dec_eq.
    replace ((y + k / (mx - mn)) * (mx - mn) + mn)
      with (k + (y * (mx - mn) + mn)) by (field; lra).
    rewrite Rpower_plus. ring.
Qed.

(** Only the ratio to middle grey matters to the encoder, and the decoder
    is linear in middle grey: for [c <> 0] and [middle_grey <> 0], with
    identity hooks, [encode (c * lin) (c * middle_grey) = encode lin
    middle_grey] and [decode log_norm (c * middle_grey) = c * decode
    log_norm middle_grey]. *)
Theorem middle_grey_scaling c lin y mg mn mx :
  c <> 0 -> mg <> 0 ->
  encode to_domain_1 from_range_1 (c * lin) (c * mg) mn mx =
  encode to_domain_1 from_range_1 lin mg mn mx /\
  decode to_domain_1 from_range_1 y (c * mg) mn mx =
  c * decode to_domain_1 from_range_1 y mg mn mx.
Proof.
  intros Hc Hmg. split.
  - rewrite !enc_eq.
    replace (c * lin / (c * mg)) with (lin / mg) by (field; split; assumption).
    reflexivity.
  - rewrite !dec_eq. ring.
Qed.

(** Over the reals, a reversed exposure range
    ([max_exposure < min_exposure], which the code does not guard against)
    reverses the order: with [middle_grey > 0] and identity hooks both
    functions are then strictly decreasing in exact real arithmetic. *)
Theorem reversed_range_strictly_decreasing mg mn mx :
  0 < mg -> mx < mn ->
  (forall a b, 0 < a -> a < b ->
     encode to_domain_1 from_range_1 b mg mn mx <
     encode to_domain_1 from_range_1 a mg mn mx) /\
  (forall y z, y < z ->
     decode to_domain_1 from_range_1 z mg mn mx <
     decode to_domain_1 from_range_1 y mg mn mx).
Proof.
  intros Hmg Hexp. split.
  - intros a b Ha Hab. rewrite !enc_eq.
    assert (Hln : ln (a / mg) / ln 2 < ln (b / mg) / ln 2).
    { apply Rmult_lt_compat_r; [apply Rinv_0_lt_compat, ln_2_pos |].
      apply ln_increasing; [apply Rdiv_lt_0_compat; assumption |].
      apply Rmult_lt_compat_r; [apply Rinv_0_lt_compat; assumption | assumption]. }
    set (sa := ln (a / mg) / ln 2) in *. set (sb := ln (b / mg) / ln 2) in *.
    replace ((sb - mn) / (mx - mn)) with ((mn - sb) / (mn - mx)) by (field; lra).
    replace ((sa - mn) / (mx - mn)) with ((mn - sa) / (mn - mx)) by (field; lra).
    apply Rmult_lt_compat_r; [apply Rinv_0_lt_compat; lra | lra].
  - intros y z Hyz. rewrite !dec_eq.
    apply Rmult_lt_compat_r; [assumption |].
    apply Rpower_2_increasing.
    assert (0 < (z - y) * (mn - mx)) by (apply Rmult_lt_0_compat; lra).
    lra.
Qed.

(** Re-encoding under other parameters is an affine map on codes: with
    identity hooks and both middle greys positive, decoding [y] under
    [(mg, mn, mx)] and encoding the result under [(mg', mn', mx')] gives
    [(y * (mx - mn) + mn + log2 (mg / mg') - mn') / (mx' - mn')]. *)
Theorem reencode_affine y mg mn mx mg' mn' mx' :
  0 < mg -> 0 < mg' ->
  encode to_domain_1 from_range_1
    (decode to_domain_1 from_range_1 y mg mn mx) mg' mn' mx' =
  (y * (mx - mn) + mn + ln (mg / mg') / ln 2 - mn') / (mx' - mn').
Proof.
  intros Hmg Hmg'. rewrite enc_eq, dec_eq.
  replace (Rpower 2 (y * (mx - mn) + mn) * mg / mg')
    with (Rpower 2 (y * (mx - mn) + mn) * (mg / mg')) by (field; lra).
  rewrite ln_mult by (try apply Rpower_2_pos; apply Rdiv_lt_0_compat; assumption).
  replace ((ln (Rpower 2 (y * (mx - mn) + mn)) + ln (mg / mg')) / ln 2)
    with (ln (Rpower 2 (y * (mx - mn) + mn)) / ln 2 + ln (mg / mg') / ln 2)
    by (field; apply ln_2_neq_0).
  now rewrite log2_Rpower_2.
Qed.

End RealShaperIdentity.

(** ** Round trips on arrays *)

Section RealArrays.

Open Scope R_scope.

Lemma scalar_decode_encode x mg mn mx :
  0 < x -> 0 < mg -> mn <> mx ->
  log_decoding_Log2 (A := R) identity_hook identity_hook
    (log_encoding_Log2 (A := R) identity_hook identity_hook x mg mn mx) mg mn mx = x.
Proof.
  intros Hx Hmg Hexp. unfold log_decoding_Log2, log_encoding_Log2, identity_hook; cbn.
  rewrite normalise_denormalise by lra.
  rewrite Rpower_2_log2 by (apply Rdiv_lt_0_compat; assumption).
  field; lra.
Qed.

Lemma scalar_encode_decode y mg mn mx :
  0 < mg -> mn <> mx ->
  log_encoding_Log2 (A := R) identity_hook identity_hook
    (log_decoding_Log2 (A := R) identity_hook identity_hook y mg mn mx) mg mn mx = y.
Proof.
  intros Hmg Hexp. unfold log_decoding_Log2, log_encoding_Log2, identity_hook; cbn.
  replace (Rpower 2 (y * (mx - mn) + mn) * mg / mg)
    with (Rpower 2 (y * (mx - mn) + mn)) by (field; lra).
  rewrite log2_Rpower_2. apply denormalise_normalise; lra.
Qed.

Lemma map_id_on {X : Type} (f : X -> X) (P : X -> Prop) (xs : list X) :
  (forall x, P x -> f x = x) -> Forall P xs -> map f xs = xs.
Proof.
  intros Hf HP. induction HP as [| x xs Hx _ IH]; cbn; [reflexivity |].
  now rewrite Hf, IH.
Qed.

(** The round trips hold array-wise: with identity hooks,
    [middle_grey > 0] and a non-empty exposure range, decoding the encoding
    of an array of positive values gives the same array back, of the same
    length and in the same order, and encoding the decoding of any array
    gives it back too; the empty array included. *)
Theorem array_roundtrip xs ys mg mn mx :
  Forall (fun x => 0 < x) xs -> 0 < mg -> mn <> mx ->
  log_decoding_Log2 (A := ndarray R) (ufunc identity_hook) (ufunc identity_hook)
    (log_encoding_Log2 (A := ndarray R) (ufunc identity_hook) (ufunc identity_hook)
       (array xs) mg mn mx)
    mg mn mx = array xs /\
  log_encoding_Log2 (A := ndarray R) (ufunc identity_hook) (ufunc identity_hook)
    (log_decoding_Log2 (A := ndarray R) (ufunc identity_hook) (ufunc identity_hook)
       (array ys) mg mn mx)
    mg mn mx = array ys.
Proof.
  intros Hxs Hmg Hexp.
  rewrite !log_encoding_Log2_ndarray, !log_decoding_Log2_ndarray.
  rewrite !ufunc_ndarray_compose. cbn [ufunc Elementwise_ndarray].
  split; f_equal.
  - apply (map_id_on _ (fun x => 0 < x)); [| exact Hxs].
    intros x Hx. now apply scalar_decode_encode.
  - apply (map_id_on _ (fun _ => True)); [| now apply Forall_forall].
    intros y _. now apply scalar_encode_decode.
Qed.

End RealArrays.

(** ** Properties in binary64 *)

Section Binary64.

Variable log2_64 : spec_float -> spec_float.
Variable power_64 : spec_float -> spec_float -> spec_float.

Lemma encode64_eq lin mg mn mx :
  encode64 log2_64 power_64 lin mg mn mx =
  SFdiv 53 1024 (SFsub 53 1024 (log2_64 (SFdiv 53 1024 lin mg)) mn)
                (SFsub 53 1024 mx mn).
Proof. reflexivity. Qed.

Lemma decode64_eq y mg mn mx :
  decode64 log2_64 power_64 y mg mn mx =
  SFmul 53 1024
    (power_64 (binary_normalize 53 1024 2 0 false)
       (SFadd 53 1024 (SFmul 53 1024 y (SFsub 53 1024 mx mn)) mn))
    mg.
Proof. reflexivity. Qed.

(** The literal [0.18] of the signatures is the binary64 number Python
    reads it as, [6485183463413514 * 2 ** -55]. *)
Example default_middle_grey_binary64 :
  @default_middle_grey _ (Numeric_binary64 log2_64 power_64) =
  S754_finite false 6485183463413514 (-55).
Proof. vm_compute. reflexivity. Qed.

Lemma SFsub_finite_diag s m e :
  SFsub 53 1024 (S754_finite s m e) (S754_finite s m e) = S754_zero false.
Proof. unfold SFsub. now rewrite Z.sub_diag. Qed.

Lemma compare_cont_Eq_eq m1 m2 : Pos.compare_cont Eq m1 m2 = Eq -> m1 = m2.
Proof. apply Pos.compare_eq. Qed.

(** Two finite numbers that compare equal are written the same. *)
Lemma SFeqb_finite s1 m1 e1 s2 m2 e2 :
  SFeqb (S754_finite s1 m1 e1) (S754_finite s2 m2 e2) = true ->
  s1 = s2 /\ m1 = m2 /\ e1 = e2.
Proof.
  unfold SFeqb, SFcompare.
  destruct s1, s2; try discriminate;
    destruct (Z.compare e1 e2) eqn:He; try discriminate;
    apply Z.compare_eq in He;
    destruct (Pos.compare_cont Eq m1 m2) eqn:Hm; try discriminate;
    apply compare_cont_Eq_eq in Hm; intros _; repeat split; assumption.
Qed.

(** [max_exposure - min_exposure] when the two compare equal: a zero, or
    a NaN for two equal infinities. *)
Lemma SFsub_of_equal mx mn :
  SFeqb mx mn = true ->
  (exists s, SFsub 53 1024 mx mn = S754_zero s) \/ SFsub 53 1024 mx mn = S754_nan.
Proof.
  destruct mx as [sx | sx | | sx m1 e1], mn as [sn | sn | | sn m2 e2]; intros H.
  - left. destruct sx, sn; cbn; eauto.
  - destruct sn; discriminate H.
  - discriminate H.
  - destruct sn; discriminate H.
  - destruct sx; discriminate H.
  - right. destruct sx, sn; try discriminate H; reflexivity.
  - discriminate H.
  - destruct sx; discriminate H.
  - discriminate H.
  - discriminate H.
  - discriminate H.
  - discriminate H.
  - destruct sx; discriminate H.
  - destruct sn; discriminate H.
  - discriminate H.
  - apply SFeqb_finite in H. destruct H as (-> & -> & ->).
    left. exists false. apply SFsub_finite_diag.
Qed.

Lemma SFdiv_by_zero_or_nan v d :
  (exists s, d = S754_zero s) \/ d = S754_nan ->
  is_inf_or_nan (SFdiv 53 1024 v d) = true.
Proof.
  intros [[s ->] | ->]; destruct v; reflexivity.
Qed.

(** An empty exposure range gives a division-by-zero sentinel, never a
    number: in binary64, if [max_exposure == min_exposure] then
    [log_encoding_Log2] returns an infinity or a NaN, for every [lin] and
    [middle_grey] and whatever [np.log2] returns. *)
Theorem encode64_empty_range_sentinel lin mg mn mx :
  SFeqb mx mn = true ->
  is_inf_or_nan (encode64 log2_64 power_64 lin mg mn mx) = true.
Proof.
  intros Heq. rewrite encode64_eq.
  apply SFdiv_by_zero_or_nan, SFsub_of_equal, Heq.
Qed.

Lemma SFsub_nan_r v : SFsub 53 1024 v S754_nan = S754_nan.
Proof. destruct v; reflexivity. Qed.

Lemma SFdiv_nan_r v : SFdiv 53 1024 v S754_nan = S754_nan.
Proof. destruct v; reflexivity. Qed.

Lemma SFdiv_nan_l v : SFdiv 53 1024 S754_nan v = S754_nan.
Proof. reflexivity. Qed.

Lemma SFmul_nan_r v : SFmul 53 1024 v S754_nan = S754_nan.
Proof. destruct v; reflexivity. Qed.

(** A NaN parameter poisons the result: in binary64 the encoder returns
    NaN when [min_exposure] or [max_exposure] is NaN, and the decoder
    returns NaN when [middle_grey] is NaN, for every input and whatever
    [np.log2] and [**] return. *)
Theorem nan_parameter_gives_nan v mg mn mx :
  encode64 log2_64 power_64 v mg S754_nan mx = S754_nan /\
  encode64 log2_64 power_64 v mg mn S754_nan = S754_nan /\
  decode64 log2_64 power_64 v S754_nan mn mx = S754_nan.
Proof.
  repeat split.
  - rewrite encode64_eq, !SFsub_nan_r. reflexivity.
  - rewrite encode64_eq. replace (SFsub 53 1024 S754_nan mn) with S754_nan by reflexivity.
    apply SFdiv_nan_r.
  - rewrite decode64_eq. apply SFmul_nan_r.
Qed.

Lemma SFmul_number_zero y s :
  is_number y = true -> exists s', SFmul 53 1024 y (S754_zero s) = S754_zero s'.
Proof. destruct y; try discriminate; intros _; cbn; eauto. Qed.

Lemma SFadd_zero_finite s' s m e :
  SFadd 53 1024 (S754_zero s') (S754_finite s m e) = S754_finite s m e.
Proof. reflexivity. Qed.

(** With an empty exposure range the decoder ignores the code: in
    binary64, when [max_exposure] and [min_exposure] are the same non-zero
    finite number, every code that is a number (not an infinity, not a
    NaN) decodes to [2 ** min_exposure * middle_grey]. *)
Theorem decode64_empty_range_constant y mg s m e :
  is_number y = true ->
  decode64 log2_64 power_64 y mg (S754_finite s m e) (S754_finite s m e) =
  SFmul 53 1024
    (power_64 (binary_normalize 53 1024 2 0 false) (S754_finite s m e)) mg.
Proof.
  intros Hy. rewrite decode64_eq, SFsub_finite_diag.
  destruct (SFmul_number_zero y false Hy) as [s' ->].
  now rewrite SFadd_zero_finite.
Qed.

End Binary64.

(** ** The further properties at concrete inputs *)

Section MoreWitnesses.

Open Scope R_scope.

Lemma scale_100_hooks_inverse : forall x : R, (fun v => v / 100) ((fun v => 100 * v) x) = x.
Proof. intros x. cbv beta. field. Defined.

Lemma roundtrip_inverse_hooks_witness :
  decode (fun v => v / 100) (fun v => 100 * v)
    (encode (fun v => v / 100) (fun v => 100 * v) 18 0.18 (-6.5) 6.5) 0.18 (-6.5) 6.5 =
  100 * (18 / 100) /\
  encode (fun v => v / 100) (fun v => 100 * v)
    (decode (fun v => v / 100) (fun v => 100 * v) 50 0.18 (-6.5) 6.5) 0.18 (-6.5) 6.5 =
  100 * (50 / 100).
Proof.
  apply (roundtrip_inverse_hooks (fun v => v / 100) (fun v => 100 * v)
           scale_100_hooks_inverse); lra.
Defined.

Lemma exposure_range_endpoints_witness :
  encode identity_hook identity_hook (0.18 * Rpower 2 (-6.5)) 0.18 (-6.5) 6.5 = 0 /\
  encode identity_hook identity_hook (0.18 * Rpower 2 6.5) 0.18 (-6.5) 6.5 = 1 /\
  decode identity_hook identity_hook 0 0.18 (-6.5) 6.5 = 0.18 * Rpower 2 (-6.5) /\
  decode identity_hook identity_hook 1 0.18 (-6.5) 6.5 = 0.18 * Rpower 2 6.5.
Proof.
  apply (exposure_range_endpoints identity_hook identity_hook
           identity_hook_id identity_hook_id); lra.
Defined.

Lemma encode_in_unit_interval_iff_witness :
  0 <= encode identity_hook identity_hook 18 0.18 (-6.5) 6.5 <= 1 <->
  0.18 * Rpower 2 (-6.5) <= 18 <= 0.18 * Rpower 2 6.5.
Proof.
  apply (encode_in_unit_interval_iff identity_hook identity_hook
           identity_hook_id identity_hook_id); lra.
Defined.

Lemma exposure_shift_witness :
  encode identity_hook identity_hook (18 * Rpower 2 3) 0.18 (-6.5) 6.5 =
  encode identity_hook identity_hook 18 0.18 (-6.5) 6.5 + 3 / (6.5 - -6.5) /\
  decode identity_hook identity_hook (0.5 + 3 / (6.5 - -6.5)) 0.18 (-6.5) 6.5 =
  Rpower 2 3 * decode identity_hook identity_hook 0.5 0.18 (-6.5) 6.5.
Proof.
  apply (exposure_shift identity_hook identity_hook
           identity_hook_id identity_hook_id); lra.
Defined.

Lemma middle_grey_scaling_witness :
  encode identity_hook identity_hook (100 * 0.18) (100 * 0.18) (-6.5) 6.5 =
  encode identity_hook identity_hook 0.18 0.18 (-6.5) 6.5 /\
  decode identity_hook identity_hook 0.5 (100 * 0.18) (-6.5) 6.5 =
  100 * decode identity_hook identity_hook 0.5 0.18 (-6.5) 6.5.
Proof.
  apply (middle_grey_scaling identity_hook identity_hook
           identity_hook_id identity_hook_id); lra.
Defined.

Lemma reversed_range_strictly_decreasing_witness :
  encode identity_hook identity_hook 2 0.18 6.5 (-6.5) <
  encode identity_hook identity_hook 1 0.18 6.5 (-6.5) /\
  decode identity_hook identity_hook 1 0.18 6.5 (-6.5) <
  decode identity_hook identity_hook 0 0.18 6.5 (-6.5).
Proof.
  destruct (reversed_range_strictly_decreasing identity_hook identity_hook
              identity_hook_id identity_hook_id 0.18 6.5 (-6.5)) as [Henc Hdec];
    [lra | lra |].
  split; [apply Henc | apply Hdec]; lra.
Defined.

Lemma reencode_affine_witness :
  encode identity_hook identity_hook
    (decode identity_hook identity_hook 0.5 0.18 (-6.5) 6.5) 0.18 (-8) 4 =
  (0.5 * (6.5 - -6.5) + -6.5 + ln (0.18 / 0.18) / ln 2 - -8) / (4 - -8).
Proof.
  apply (reencode_affine identity_hook identity_hook
           identity_hook_id identity_hook_id); lra.
Defined.

Lemma array_roundtrip_witness :
  log_decoding_Log2 (A := ndarray R) (ufunc identity_hook) (ufunc identity_hook)
    (log_encoding_Log2 (A := ndarray R) (ufunc identity_hook) (ufunc identity_hook)
       (array [1; 1.5; 2]) 0.18 (-6.5) 6.5)
    0.18 (-6.5) 6.5 = array [1; 1.5; 2] /\
  log_encoding_Log2 (A := ndarray R) (ufunc identity_hook) (ufunc identity_hook)
    (log_decoding_Log2 (A := ndarray R) (ufunc identity_hook) (ufunc identity_hook)
       (array [0; 1]) 0.18 (-6.5) 6.5)
    0.18 (-6.5) 6.5 = array [0; 1].
Proof.
  apply array_roundtrip; [| lra | lra].
  repeat constructor; lra.
Defined.

End MoreWitnesses.

Lemma encode64_empty_range_sentinel_witness :
  is_inf_or_nan
    (encode64 (fun x => x) (fun _ x => x)
       (S754_finite false 4503599627370496 (-52))
       (S754_finite false 6485183463413514 (-55))
       (S754_finite false 7318349394477056 (-50))
       (S754_finite false 7318349394477056 (-50))) = true.
Proof.
  apply encode64_empty_range_sentinel. reflexivity.
Defined.

Lemma decode64_empty_range_constant_witness :
  decode64 (fun x => x) (fun _ x => x)
    (S754_finite false 4503599627370496 (-53))
    (S754_finite false 6485183463413514 (-55))
    (S754_finite false 7318349394477056 (-50))
    (S754_finite false 7318349394477056 (-50)) =
  SFmul 53 1024
    ((fun _ x => x) (binary_normalize 53 1024 2 0 false)
       (S754_finite false 7318349394477056 (-50)))
    (S754_finite false 6485183463413514 (-55)).
Proof.
  apply (decode64_empty_range_constant (fun x => x) (fun _ x => x)). reflexivity.
Defined.

(** ** The default exposure range *)

Section DefaultRange.

Open Scope R_scope.

Variables to_domain_1 from_range_1 : R -> R.
Hypothesis to_domain_1_id : forall x, to_domain_1 x = x.
Hypothesis from_range_1_id : forall x, from_range_1 x = x.

Lemma default_range_ordered :
  default_min_exposure (T := R) < default_max_exposure (T := R).
Proof.
  rewrite default_min_exposure_R, default_max_exposure_R.
  pose proof sqrt_2_bounds as [Hs _]. lra.
Qed.

(** With the default parameters the exposure range starts above middle
    grey, because the default [min_exposure] is the positive number
    [0.18 * 2 ** -6.5]: every linear value from [0] (excluded) up to middle
    grey (included) gets a negative code. *)
Theorem default_codes_up_to_middle_grey_negative lin :
  0 < lin <= default_middle_grey ->
  encode to_domain_1 from_range_1 lin
    default_middle_grey default_min_exposure default_max_exposure < 0.
Proof.
  intros [Hlin Hle].
  rewrite (encode_eq to_domain_1 from_range_1 to_domain_1_id from_range_1_id).
  pose proof default_min_exposure_pos as Hmin.
  pose proof default_range_ordered as Hord.
  assert (Hmg : 0 < default_middle_grey (T := R))
    by (rewrite default_middle_grey_R; lra).
  assert (Hlog : ln (lin / default_middle_grey) / ln 2 <= 0).
  { assert (Hq : 0 < lin / default_middle_grey <= 1).
    { split; [apply Rdiv_lt_0_compat; assumption |].
      apply Rmult_le_reg_r with default_middle_grey; [exact Hmg |].
      replace (lin / default_middle_grey * default_middle_grey) with lin by (field; lra).
      lra. }
    assert (Hln : ln (lin / default_middle_grey) <= 0).
    { destruct Hq as [Hq0 [Hq1 | Hq1]].
      - left. rewrite <- ln_1. now apply ln_increasing.
      - right. rewrite Hq1. apply ln_1. }
    pose proof ln_2_pos as Hl.
    assert (Hinv : 0 < / ln 2) by now apply Rinv_0_lt_compat.
    unfold Rdiv. nra. }
  set (s := ln (lin / default_middle_grey) / ln 2) in *.
  set (mn := default_min_exposure) in *. set (mx := default_max_exposure) in *.
  replace ((s - mn) / (mx - mn)) with (- ((mn - s) / (mx - mn))) by (field; lra).
  apply Ropp_lt_gt_0_contravar.
  apply Rdiv_lt_0_compat; lra.
Qed.

End DefaultRange.

Section DefaultRangeWitness.

Open Scope R_scope.

Lemma default_codes_up_to_middle_grey_negative_witness :
  encode identity_hook identity_hook 0.1
    default_middle_grey default_min_exposure default_max_exposure < 0.
Proof.
  apply (default_codes_up_to_middle_grey_negative identity_hook identity_hook
           identity_hook_id identity_hook_id).
  rewrite default_middle_grey_R. lra.
Defined.

End DefaultRangeWitness.

(** ** Where binary64 departs from the reals *)

Section Binary64Rounding.

Lemma SFcompare_refl_not_Lt v : SFcompare v v <> Some Lt.
Proof.
  destruct v as [s | s | | s m e]; cbn.
  - discriminate.
  - destruct s; discriminate.
  - discriminate.
  - destruct s; rewrite Z.compare_refl; change (Pos.compare_cont Eq m m) with (Pos.compare m m);
      rewrite Pos.compare_refl; discriminate.
Qed.

Lemma SFltb_irrefl v : SFltb v v = false.
Proof.
  unfold SFltb. pose proof (SFcompare_refl_not_Lt v) as H.
  destruct (SFcompare v v) as [[| |] |]; try reflexivity. now elim H.
Qed.

(** [v - v] is a zero, or a NaN when [v] is an infinity or a NaN. *)
Lemma SFsub_diag v :
  SFsub 53 1024 v v = S754_zero false \/ SFsub 53 1024 v v = S754_nan.
Proof.
  destruct v as [s | s | | s m e].
  - left. destruct s; reflexivity.
  - right. destruct s; reflexivity.
  - right. reflexivity.
  - left. apply SFsub_finite_diag.
Qed.

(** Rounding a negative value never gives a positive one. *)
Lemma binary_round_aux_negative m e l :
  b64_positive (binary_round_aux 53 1024 true m e l) = false.
Proof.
  unfold binary_round_aux.
  destruct (shr_fexp 53 1024 m e l) as [mrs' e'].
  destruct (shr_fexp 53 1024 _ e' loc_Exact) as [mrs'' e''].
  destruct (shr_m mrs''); [reflexivity | | reflexivity].
  destruct (Z.leb e'' (1024 - 53)); reflexivity.
Qed.

(** A binary64 number that is positive and at most the least positive
    number is the least positive number. *)
Lemma at_most_least m e :
  valid_binary 53 1024 (S754_finite false m e) = true ->
  SFleb (S754_finite false m e) b64_least = true ->
  S754_finite false m e = b64_least.
Proof.
  unfold valid_binary, bounded, canonical_mantissa, fexp, emin.
  rewrite andb_true_iff, Z.eqb_eq. intros [Hcan _].
  assert (He : (-1074 <= e)%Z) by lia.
  unfold SFleb, SFcompare, b64_least.
  destruct (Z.compare e (-1074)) eqn:Hc.
  - apply Z.compare_eq in Hc. subst e.
    destruct m as [m | m |]; cbn.
    + destruct m; discriminate.
    + destruct m; discriminate.
    + reflexivity.
  - rewrite Z.compare_lt_iff in Hc. lia.
  - discriminate.
Qed.

(** The product with [0.18] of anything at or below the least positive
    number is not positive. *)
Lemma mul_0_18_underflows p :
  valid_binary 53 1024 p = true -> SFleb p b64_least = true ->
  b64_positive (SFmul 53 1024 p b64_0_18) = false.
Proof.
  intros Hv Hle. destruct p as [s | s | | s m e].
  - reflexivity.
  - destruct s; [reflexivity | discriminate Hle].
  - discriminate Hle.
  - destruct s.
    + apply binary_round_aux_negative.
    + rewrite (at_most_least m e Hv Hle). vm_compute. reflexivity.
Qed.

(** The order is not strict in binary64. The inputs and parameters are
    valid ([0 < a < b], [middle_grey = 0.18 > 0], [-6.5 < 6.5],
    [0 < 2 ** -60]), yet [1.5000000000000002] and [1.5000000000000004]
    get the same code, because their quotients by [0.18] round to the
    same number, and [0] and [2 ** -60] decode to the same value, because
    [2 ** -60 * 13 - 6.5] rounds to [-6.5]: whatever [np.log2] and [**]
    return, the second result is not greater than the first. *)
Lemma binary64_not_strictly_increasing :
  (b64_positive b64_1_5_next = true /\
   SFltb b64_1_5_next b64_1_5_next2 = true /\
   b64_positive b64_0_18 = true /\
   SFltb b64_neg_6_5 b64_6_5 = true /\
   SFltb (S754_zero false) b64_2_pow_neg_60 = true) /\
  ~ (exists log2_64 power_64,
       SFltb (encode64 log2_64 power_64 b64_1_5_next b64_0_18 b64_neg_6_5 b64_6_5)
             (encode64 log2_64 power_64 b64_1_5_next2 b64_0_18 b64_neg_6_5 b64_6_5)
       = true) /\
  ~ (exists log2_64 power_64,
       SFltb (decode64 log2_64 power_64 (S754_zero false) b64_0_18 b64_neg_6_5 b64_6_5)
             (decode64 log2_64 power_64 b64_2_pow_neg_60 b64_0_18 b64_neg_6_5 b64_6_5)
       = true).
Proof.
  split; [repeat split; vm_compute; reflexivity |]. split.
  - intros (log2_64 & power_64 & H). rewrite !encode64_eq in H.
    replace (SFdiv 53 1024 b64_1_5_next2 b64_0_18)
      with (SFdiv 53 1024 b64_1_5_next b64_0_18) in H by (vm_compute; reflexivity).
    rewrite SFltb_irrefl in H. discriminate H.
  - intros (log2_64 & power_64 & H). rewrite !decode64_eq in H.
    replace (SFadd 53 1024
               (SFmul 53 1024 b64_2_pow_neg_60 (SFsub 53 1024 b64_6_5 b64_neg_6_5))
               b64_neg_6_5)
      with (SFadd 53 1024
              (SFmul 53 1024 (S754_zero false) (SFsub 53 1024 b64_6_5 b64_neg_6_5))
              b64_neg_6_5) in H by (vm_compute; reflexivity).
    rewrite SFltb_irrefl in H. discriminate H.
Qed.

(** The doubling step can be lost in binary64. For the least positive
    number [lin = 2 ** -1074] with [middle_grey = 4] and exposures [-6.5]
    and [6.5] (all valid: [lin > 0], [middle_grey > 0], [-6.5 < 6.5]),
    both [lin / 4] and [(2 * lin) / 4] round to zero, so both codes are
    the same value and their difference is a zero or a NaN, never
    [1 / (max_exposure - min_exposure)], whatever [np.log2] returns. *)
Lemma binary64_doubling_step_lost :
  (b64_positive b64_least = true /\
   b64_positive b64_4 = true /\
   SFltb b64_neg_6_5 b64_6_5 = true) /\
  ~ (exists log2_64 power_64,
       SFeqb
         (SFsub 53 1024
            (encode64 log2_64 power_64 (SFmul 53 1024 b64_2 b64_least)
               b64_4 b64_neg_6_5 b64_6_5)
            (encode64 log2_64 power_64 b64_least b64_4 b64_neg_6_5 b64_6_5))
         (SFdiv 53 1024 b64_1 (SFsub 53 1024 b64_6_5 b64_neg_6_5))
       = true).
Proof.
  split; [repeat split; vm_compute; reflexivity |].
  intros (log2_64 & power_64 & H). rewrite !encode64_eq in H.
  replace (SFdiv 53 1024 (SFmul 53 1024 b64_2 b64_least) b64_4)
    with (SFdiv 53 1024 b64_least b64_4) in H by (vm_compute; reflexivity).
  destruct (SFsub_diag
              (SFdiv 53 1024
                 (SFsub 53 1024 (log2_64 (SFdiv 53 1024 b64_least b64_4)) b64_neg_6_5)
                 (SFsub 53 1024 b64_6_5 b64_neg_6_5))) as [Hz | Hn].
  - rewrite Hz in H. vm_compute in H. discriminate H.
  - rewrite Hn in H. vm_compute in H. discriminate H.
Qed.

(** The decoder can return zero in binary64. At [log_norm = -100] with
    [middle_grey = 0.18] and exposures [-6.5] and [6.5] (all finite,
    [middle_grey > 0]) the exponent is [-1306.5].  The real [2 ** -1306.5]
    lies far below the least positive binary64 number; whenever [**]
    returns a binary64 number that is at most that least number (zero, as
    NumPy does, or anything else not above it), the product with [0.18]
    is not positive. *)
Lemma binary64_decode_underflows_to_zero :
  (b64_positive b64_0_18 = true /\
   SFadd 53 1024
     (SFmul 53 1024 b64_neg_100 (SFsub 53 1024 b64_6_5 b64_neg_6_5)) b64_neg_6_5 =
   S754_finite true 5746047766757376 (-42)) /\
  ~ (exists log2_64 power_64,
       valid_binary 53 1024
         (power_64 b64_2 (S754_finite true 5746047766757376 (-42))) = true /\
       SFleb (power_64 b64_2 (S754_finite true 5746047766757376 (-42))) b64_least = true /\
       b64_positive
         (decode64 log2_64 power_64 b64_neg_100 b64_0_18 b64_neg_6_5 b64_6_5) = true).
Proof.
  split; [split; vm_compute; reflexivity |].
  intros (log2_64 & power_64 & Hv & Hle & H). rewrite decode64_eq in H.
  replace (SFadd 53 1024
             (SFmul 53 1024 b64_neg_100 (SFsub 53 1024 b64_6_5 b64_neg_6_5)) b64_neg_6_5)
    with (S754_finite true 5746047766757376 (-42)) in H by (vm_compute; reflexivity).
  change (binary_normalize 53 1024 2 0 false) with b64_2 in H.
  rewrite (mul_0_18_underflows _ Hv Hle) in H. discriminate H.
Qed.

End Binary64Rounding.
